(** * ambi_cropac: the internal header of the first-order parametric binaural
      Ambisonic decoder (SPARTA, ambi_cropac_internal.h)

    The header fixes the geometry of the decoder (hop size, hybrid band count,
    number of ears and of spherical-harmonic signals), declares the two structs
    that hold the codec parameters and the run-time data, and documents the
    meaning of the re-initialisation flag and of the per-band user controls.
    This file embeds those declarations and proves what the declarations
    themselves decide. The code that runs on them, ambi_cropac.c, is not part
    of the sources, and nothing here speaks for it. *)

Set Warnings "-stdlib-vector".
From Stdlib Require Import ZArith QArith List Lia Bool String Vector.
Import ListNotations.

Close Scope Q_scope.
Set Implicit Arguments.

(** ** Definitions of the header *)

Module Defs.

(** 1: find nearest HRIRs to t-design dirs, 0: use triangular interpolation *)
Definition USE_NEAREST_HRIRS : nat := 1.

(** STFT hop size = nBands *)
Definition HOP_SIZE : nat := 128.

(** hybrid mode incurs an additional 5 bands *)
Definition HYBRID_BANDS : nat := HOP_SIZE + 5.

(** true for most humans *)
Definition NUM_EARS : nat := 2.

(** first-order *)
Definition SH_ORDER : nat := 1.

Definition NUM_SH_SIGNALS : nat := (SH_ORDER + 1) * (SH_ORDER + 1).

(** The post gain, in decibels. *)
Definition POST_GAIN_DB : Q := (-9)%Q.

(** [TIME_SLOTS] is [FRAME_SIZE / HOP_SIZE]; [FRAME_SIZE] comes from the
    public header ambi_cropac.h and is a parameter here. *)
Definition TIME_SLOTS (FRAME_SIZE : nat) : nat := FRAME_SIZE / HOP_SIZE.

End Defs.
Export Defs.

(** ** Arrays

    A C array [T a[n]] has its extent in its type; it is a vector of length
    [n]. [dim] reads the extent back from a value. *)

Definition array (A : Type) (n : nat) : Type := Vector.t A n.

Definition dim {A : Type} {n : nat} (a : array A n) : nat :=
  List.length (Vector.to_list a).

(** Every row of a two-dimensional array has extent [d]. *)
Definition rows_dim {A : Type} {n m : nat} (a : array (array A m) n) (d : nat) : Prop :=
  List.Forall (fun row => dim row = d) (Vector.to_list a).

(** [a] is a [d0 x d1 x d2] array. *)
Definition dims3 {A : Type} {n m k : nat}
    (a : array (array (array A k) m) n) (d0 d1 d2 : nat) : Prop :=
  dim a = d0 /\
  List.Forall (fun plane => dim plane = d1 /\ rows_dim plane d2) (Vector.to_list a).

(** An array with every cell set to [x]. *)
Definition filled {A : Type} (x : A) (n : nat) : array A n := Vector.const x n.

(** ** Structs *)

Section Structs.

(** The sample type ([float] in the source). *)
Variable float : Type.

(** [FRAME_SIZE], [CH_ORDER] and [NORM_TYPES] are declared in ambi_cropac.h. *)
Variable FRAME_SIZE : nat.
Variable CH_ORDER : Type.
Variable NORM_TYPES : Type.

(** The filterbank's [complexVector] (afSTFTlib). *)
Variable complexVector : Type.

Definition float_complex : Type := (float * float)%type.

(** A pointer to a heap buffer: [None] is the null pointer. *)
Definition buffer (A : Type) : Type := option (list A).

Record codecPars : Type := {
  (* Decoder *)
  M_dec : array (array (array float_complex NUM_SH_SIGNALS) NUM_EARS) HYBRID_BANDS;
  (* sofa file info *)
  sofa_filepath : option string;
  hrirs : buffer float;              (* N_hrir_dirs x 2 x hrir_len *)
  hrir_dirs_deg : buffer float;      (* [azi elev]; N_hrir_dirs x 2 *)
  N_hrir_dirs : Z;
  hrir_len : Z;
  hrir_fs : Z;
  N_Tri : Z;
  (* hrir filterbank coefficients *)
  itds_s : buffer float;             (* N_hrirs x 1 *)
  hrtf_fb : buffer float_complex
}.

Record ambi_cropac_data : Type := {
  (* audio buffers + afSTFT time-frequency transform handle *)
  SHFrameTD : array (array float FRAME_SIZE) NUM_SH_SIGNALS;
  SHframeTF : array (array (array float_complex (TIME_SLOTS FRAME_SIZE)) NUM_SH_SIGNALS) HYBRID_BANDS;
  SHframeTF_rot : array (array (array float_complex (TIME_SLOTS FRAME_SIZE)) NUM_SH_SIGNALS) HYBRID_BANDS;
  binframeTF : array (array (array float_complex (TIME_SLOTS FRAME_SIZE)) NUM_EARS) HYBRID_BANDS;
  STFTInputFrameTF : buffer (list complexVector);
  STFTOutputFrameTF : buffer (list complexVector);
  hSTFT : option nat;                (* afSTFT handle *)
  afSTFTdelay : Z;                   (* for host delay compensation *)
  tempHopFrameTD : buffer (list float);
  fs : Z;                            (* host sampling rate *)
  freqVector : array float HYBRID_BANDS;
  (* our codec configuration *)
  pars : option codecPars;
  (* flags *)
  reInitCodec : Z;                   (* 0: no init required, 1: init required, 2: init in progress *)
  (* user parameters *)
  EQ : array float HYBRID_BANDS;
  balance : array float HYBRID_BANDS;      (* 0: only diffuse, 1: equal, 2: only directional *)
  decBalance : array float HYBRID_BANDS;   (* 0: only linear, 0.5: equal, 1: only parametric *)
  rE_WEIGHT : Z;
  useDefaultHRIRsFLAG : Z;
  chOrdering : CH_ORDER;
  norm : NORM_TYPES;
  covAvgCoeff : float;
  enableRotation : Z;
  yaw : float;
  roll : float;
  pitch : float;
  bFlipYaw : Z;
  bFlipPitch : Z;
  bFlipRoll : Z;
  useRollPitchYawFlag : Z
}.

(** The band extents of the per-band structures of the module: the decode
    matrix, the three complex sub-band buffers, the frequency vector and the
    three per-band user parameters. *)
Definition band_extents (p : codecPars) (d : ambi_cropac_data) : list nat :=
  [ dim (M_dec p); dim (SHframeTF d); dim (SHframeTF_rot d); dim (binframeTF d);
    dim (freqVector d); dim (EQ d); dim (balance d); dim (decBalance d) ].

End Structs.

(** ** A module at rest

    A sample value of both structs, for a frame of 512 samples (four time
    slots): buffers cleared, pointers null, [reInitCodec] at 1 (init
    required) and the per-band user parameters at the values their comments
    call equal.
    Samples are rationals here. *)

Module AtRest.

Definition FRAME_SIZE : nat := 512.

Definition zero : float_complex Q := (0%Q, 0%Q).

Definition pars0 : codecPars Q :=
  {| M_dec := filled (filled (filled zero NUM_SH_SIGNALS) NUM_EARS) HYBRID_BANDS;
     sofa_filepath := None;
     hrirs := None;
     hrir_dirs_deg := None;
     N_hrir_dirs := 0%Z;
     hrir_len := 0%Z;
     hrir_fs := 0%Z;
     N_Tri := 0%Z;
     itds_s := None;
     hrtf_fb := None |}.

Definition data0 : ambi_cropac_data Q FRAME_SIZE unit unit unit :=
  {| SHFrameTD := filled (filled 0%Q FRAME_SIZE) NUM_SH_SIGNALS;
     SHframeTF := filled (filled (filled zero _) NUM_SH_SIGNALS) HYBRID_BANDS;
     SHframeTF_rot := filled (filled (filled zero _) NUM_SH_SIGNALS) HYBRID_BANDS;
     binframeTF := filled (filled (filled zero _) NUM_EARS) HYBRID_BANDS;
     STFTInputFrameTF := None;
     STFTOutputFrameTF := None;
     hSTFT := None;
     afSTFTdelay := 0%Z;
     tempHopFrameTD := None;
     fs := 48000%Z;
     freqVector := filled 0%Q HYBRID_BANDS;
     pars := Some pars0;
     reInitCodec := 1%Z;
     EQ := filled 1%Q HYBRID_BANDS;
     balance := filled 1%Q HYBRID_BANDS;
     decBalance := filled (1 # 2)%Q HYBRID_BANDS;
     rE_WEIGHT := 0%Z;
     useDefaultHRIRsFLAG := 1%Z;
     chOrdering := tt;
     norm := tt;
     covAvgCoeff := (1 # 4)%Q;
     enableRotation := 0%Z;
     yaw := 0%Q;
     roll := 0%Q;
     pitch := 0%Q;
     bFlipYaw := 0%Z;
     bFlipPitch := 0%Z;
     bFlipRoll := 0%Z;
     useRollPitchYawFlag := 0%Z |}.

End AtRest.

(** ** Storage order

    C stores a multi-dimensional array row by row: the cells of [a[n][m][k]]
    follow one another with the last index running fastest, so that
    [a[i][j][l]] is cell number [(i * m + j) * k + l] of the whole. *)

(** The cells of an array of rows, and of an array of planes, in storage
    order. *)
Definition cells2 {A : Type} {n m : nat} (a : array (array A m) n) : list A :=
  List.concat (List.map (fun row => Vector.to_list row) (Vector.to_list a)).

Definition cells3 {A : Type} {n m k : nat}
    (a : array (array (array A k) m) n) : list A :=
  List.concat (List.map (fun plane => cells2 plane) (Vector.to_list a)).

(** [a[i][j][l]], or [None] when an index is past its extent. *)
Definition cell3 {A : Type} {n m k : nat}
    (a : array (array (array A k) m) n) (i j l : nat) : option A :=
  match List.nth_error (Vector.to_list a) i with
  | Some plane =>
      match List.nth_error (Vector.to_list plane) j with
      | Some row => List.nth_error (Vector.to_list row) l
      | None => None
      end
  | None => None
  end.

(** The number of the cell [[i][j][l]] of an array with extents [m] and [k]
    in its last two dimensions, and the indices of cell number [o]. *)
Definition offset3 (m k : nat) (i j l : nat) : nat := (i * m + j) * k + l.

Definition index3 (m k : nat) (o : nat) : nat * nat * nat :=
  (o / (m * k), (o / k) mod m, o mod k).

(** ** The angle macros

    [DEG2RAD] and [RAD2DEG] are function-like macros, defined here unless an
    earlier header has defined them. A macro call is replaced by the body with
    the tokens of the argument in the place of [x], and what is then evaluated
    is the resulting text. [PI] is defined elsewhere. *)

Module Macro.

Inductive token : Type :=
| LPAREN
| RPAREN
| PLUS
| MINUS
| STAR
| SLASH
| IDENT (name : string)
| CONST (text : string).

(** #define DEG2RAD(x) (x * PI / 180.0f) *)
Definition DEG2RAD (x : list token) : list token :=
  [LPAREN] ++ x ++ [STAR; IDENT "PI"; SLASH; CONST "180.0f"] ++ [RPAREN].

(** #define RAD2DEG(x) (x * 180.0f / PI) *)
Definition RAD2DEG (x : list token) : list token :=
  [LPAREN] ++ x ++ [STAR; CONST "180.0f"; SLASH; IDENT "PI"] ++ [RPAREN].

(** Expressions of C over identifiers, constants, parentheses, unary minus
    and the four binary operators, by the levels of the grammar: [*] and [/]
    bind tighter than [+] and [-], and all four group to the left. *)
Inductive unary_expr : Type :=
| Var (name : string)
| Const (text : string)
| Neg (u : unary_expr)
| Paren (a : additive_expr)
with multiplicative_expr : Type :=
| MUnary (u : unary_expr)
| Mul (m : multiplicative_expr) (u : unary_expr)
| Div (m : multiplicative_expr) (u : unary_expr)
with additive_expr : Type :=
| AMult (m : multiplicative_expr)
| Add (a : additive_expr) (m : multiplicative_expr)
| Sub (a : additive_expr) (m : multiplicative_expr).

(** The text of an expression. *)
Fixpoint tokens_of_unary (u : unary_expr) : list token :=
  match u with
  | Var x => [IDENT x]
  | Const c => [CONST c]
  | Neg u' => MINUS :: tokens_of_unary u'
  | Paren a => LPAREN :: tokens_of_additive a ++ [RPAREN]
  end
with tokens_of_multiplicative (m : multiplicative_expr) : list token :=
  match m with
  | MUnary u => tokens_of_unary u
  | Mul m' u => tokens_of_multiplicative m' ++ STAR :: tokens_of_unary u
  | Div m' u => tokens_of_multiplicative m' ++ SLASH :: tokens_of_unary u
  end
with tokens_of_additive (a : additive_expr) : list token :=
  match a with
  | AMult m => tokens_of_multiplicative m
  | Add a' m => tokens_of_additive a' ++ PLUS :: tokens_of_multiplicative m
  | Sub a' m => tokens_of_additive a' ++ MINUS :: tokens_of_multiplicative m
  end.

(** The text goes on with a multiplicative operator. *)
Definition continues_multiplicative (ts : list token) : bool :=
  match ts with
  | STAR :: _ => true
  | SLASH :: _ => true
  | _ => false
  end.

(** [run] gives [r] with enough fuel. *)
Definition enough {R : Type} (run : nat -> option R) (r : R) : Prop :=
  exists n : nat, forall fuel : nat, n <= fuel -> run fuel = Some r.

Section Evaluation.

(** The arithmetic of the operands, whatever their type, and the values of
    the identifiers and constants. *)
Variable float : Type.
Variables fadd fsub fmul fdiv : float -> float -> float.
Variable fneg : float -> float.
Variable identifier : string -> float.
Variable constant : string -> float.

(** The value of an expression. *)
Fixpoint value_of_unary (u : unary_expr) : float :=
  match u with
  | Var x => identifier x
  | Const c => constant c
  | Neg u' => fneg (value_of_unary u')
  | Paren a => value_of_additive a
  end
with value_of_multiplicative (m : multiplicative_expr) : float :=
  match m with
  | MUnary u => value_of_unary u
  | Mul m' u => fmul (value_of_multiplicative m') (value_of_unary u)
  | Div m' u => fdiv (value_of_multiplicative m') (value_of_unary u)
  end
with value_of_additive (a : additive_expr) : float :=
  match a with
  | AMult m => value_of_multiplicative m
  | Add a' m => fadd (value_of_additive a') (value_of_multiplicative m)
  | Sub a' m => fsub (value_of_additive a') (value_of_multiplicative m)
  end.

(** Evaluation of a text, by recursive descent: each function reads an
    expression of its level off the front of the text and returns its value
    with the text that is left. [fuel] bounds the number of nested calls. *)
Fixpoint additive (fuel : nat) (ts : list token) {struct fuel}
    : option (float * list token) :=
  match fuel with
  | O => None
  | S fuel' =>
      match multiplicative fuel' ts with
      | Some (v, rest) => additive_rest fuel' v rest
      | None => None
      end
  end
with additive_rest (fuel : nat) (acc : float) (ts : list token) {struct fuel}
    : option (float * list token) :=
  match fuel with
  | O => None
  | S fuel' =>
      match ts with
      | PLUS :: ts' =>
          match multiplicative fuel' ts' with
          | Some (v, rest) => additive_rest fuel' (fadd acc v) rest
          | None => None
          end
      | MINUS :: ts' =>
          match multiplicative fuel' ts' with
          | Some (v, rest) => additive_rest fuel' (fsub acc v) rest
          | None => None
          end
      | _ => Some (acc, ts)
      end
  end
with multiplicative (fuel : nat) (ts : list token) {struct fuel}
    : option (float * list token) :=
  match fuel with
  | O => None
  | S fuel' =>
      match unary fuel' ts with
      | Some (v, rest) => multiplicative_rest fuel' v rest
      | None => None
      end
  end
with multiplicative_rest (fuel : nat) (acc : float) (ts : list token) {struct fuel}
    : option (float * list token) :=
  match fuel with
  | O => None
  | S fuel' =>
      match ts with
      | STAR :: ts' =>
          match unary fuel' ts' with
          | Some (v, rest) => multiplicative_rest fuel' (fmul acc v) rest
          | None => None
          end
      | SLASH :: ts' =>
          match unary fuel' ts' with
          | Some (v, rest) => multiplicative_rest fuel' (fdiv acc v) rest
          | None => None
          end
      | _ => Some (acc, ts)
      end
  end
with unary (fuel : nat) (ts : list token) {struct fuel}
    : option (float * list token) :=
  match fuel with
  | O => None
  | S fuel' =>
      match ts with
      | IDENT x :: rest => Some (identifier x, rest)
      | CONST c :: rest => Some (constant c, rest)
      | MINUS :: ts' =>
          match unary fuel' ts' with
          | Some (v, rest) => Some (fneg v, rest)
          | None => None
          end
      | LPAREN :: ts' =>
          match additive fuel' ts' with
          | Some (v, RPAREN :: rest) => Some (v, rest)
          | _ => None
          end
      | _ => None
      end
  end.

(** The value of a whole text: [None] if it is no expression, if something
    is left over, or if the fuel runs out. *)
Definition value (fuel : nat) (ts : list token) : option float :=
  match additive fuel ts with
  | Some (v, []) => Some v
  | _ => None
  end.

End Evaluation.

End Macro.

(** * Properties *)

(** ** Array extents *)

Lemma dim_extent (A : Type) (n : nat) (a : array A n) : dim a = n.
Proof. unfold dim. apply Vector.length_to_list. Qed.

Lemma rows_dim_extent (A : Type) (n m : nat) (a : array (array A m) n) :
  rows_dim a m.
Proof.
  unfold rows_dim. apply List.Forall_forall. intros row _. apply dim_extent.
Qed.

Lemma dims3_extent (A : Type) (n m k : nat) (a : array (array (array A k) m) n) :
  dims3 a n m k.
Proof.
  split.
  - apply dim_extent.
  - apply List.Forall_forall. intros plane _. split.
    + apply dim_extent.
    + apply rows_dim_extent.
Qed.

Lemma HYBRID_BANDS_value : HYBRID_BANDS = 133.
Proof. reflexivity. Qed.

Lemma NUM_SH_SIGNALS_value : NUM_SH_SIGNALS = 4.
Proof. reflexivity. Qed.

Lemma POST_GAIN_DB_value : (POST_GAIN_DB == - (9))%Q.
Proof. reflexivity. Qed.

(** The frame sizes with 4, 8 and 16 time slots. *)
Example TIME_SLOTS_values :
  TIME_SLOTS 512 = 4 /\ TIME_SLOTS 1024 = 8 /\ TIME_SLOTS 2048 = 16.
Proof. repeat split. Qed.

Example pars0_M_dec_extents :
  dim (M_dec AtRest.pars0) = 133 /\
  List.map (fun plane => dim plane) (Vector.to_list (M_dec AtRest.pars0))
    = List.repeat 2 133.
Proof. split; vm_compute; reflexivity. Qed.

Example data0_band_extents :
  band_extents AtRest.pars0 AtRest.data0 = List.repeat 133 8 /\
  pars AtRest.data0 = Some AtRest.pars0.
Proof. split; [vm_compute|]; reflexivity. Qed.

Example data0_time_slots : dim (SHFrameTD AtRest.data0) = 4 /\ TIME_SLOTS AtRest.FRAME_SIZE = 4.
Proof. split; vm_compute; reflexivity. Qed.

(** C5. The decode matrix [M_dec] is a [HYBRID_BANDS x 2 x 4] array: two ears
    and four spherical-harmonic channels, four being [(SH_ORDER + 1)^2] for
    the fixed first order. The extents belong to the type of the field, so
    they are the same in every value of the codec parameters, whatever
    sequence of updates produced it. *)
Theorem M_dec_dimensions_fixed (float : Type) (p : codecPars float) :
  dims3 (M_dec p) HYBRID_BANDS 2 4 /\
  NUM_EARS = 2 /\
  SH_ORDER = 1 /\
  NUM_SH_SIGNALS = (SH_ORDER + 1) ^ 2 /\
  NUM_SH_SIGNALS = 4 /\
  forall (update : codecPars float -> codecPars float) (n : nat),
    dims3 (M_dec (Nat.iter n update p)) HYBRID_BANDS 2 4.
Proof.
  split; [ apply (dims3_extent (M_dec p)) | ].
  do 4 (split; [ reflexivity | ]).
  intros update n. apply (dims3_extent (M_dec (Nat.iter n update p))).
Qed.

(** C9. The hybrid band count is the hop size plus 5, that is 133 for the hop
    size of 128, and the decode matrix, the three complex sub-band buffers,
    the frequency vector and the per-band EQ, balance and decode-balance
    parameters all have this band extent. *)
Theorem band_dimension_shared
    (float : Type) (FRAME_SIZE : nat) (CH_ORDER NORM_TYPES complexVector : Type)
    (p : codecPars float)
    (d : ambi_cropac_data float FRAME_SIZE CH_ORDER NORM_TYPES complexVector) :
  HOP_SIZE = 128 /\
  HYBRID_BANDS = HOP_SIZE + 5 /\
  HYBRID_BANDS = 133 /\
  band_extents p d = List.repeat HYBRID_BANDS 8 /\
  dim (M_dec p) = HYBRID_BANDS /\
  dim (SHframeTF d) = HYBRID_BANDS /\
  dim (SHframeTF_rot d) = HYBRID_BANDS /\
  dim (binframeTF d) = HYBRID_BANDS /\
  dim (freqVector d) = HYBRID_BANDS /\
  dim (EQ d) = HYBRID_BANDS /\
  dim (balance d) = HYBRID_BANDS /\
  dim (decBalance d) = HYBRID_BANDS /\
  (forall q : codecPars float, pars d = Some q -> dim (M_dec q) = dim (EQ d)).
Proof.
  unfold band_extents.
  rewrite !dim_extent.
  do 12 (split; [reflexivity|]).
  intros q _. apply dim_extent.
Qed.

(** * Further properties of the header *)

(** ** Time slots and hops *)



Lemma TIME_SLOTS_zero (FRAME_SIZE : nat) :
  TIME_SLOTS FRAME_SIZE = 0 <-> FRAME_SIZE < HOP_SIZE.
Proof.
  unfold TIME_SLOTS. apply Nat.div_small_iff. discriminate.
Qed.

Example TIME_SLOTS_short_frames :
  TIME_SLOTS 127 = 0 /\ TIME_SLOTS 128 = 1 /\ TIME_SLOTS 600 = 4 /\ 600 mod HOP_SIZE = 88.
Proof. repeat split. Qed.


(** ** Cells and storage order *)

Lemma concat_uniform_length (A : Type) (k : nat) (ls : list (list A)) :
  List.Forall (fun r => List.length r = k) ls ->
  List.length (List.concat ls) = List.length ls * k.
Proof.
  induction 1 as [|r ls Hr _ IH]; simpl.
  - reflexivity.
  - rewrite List.length_app, Hr, IH. reflexivity.
Qed.

(** In a concatenation of rows of length [k], cell [l] of row [i] is cell
    number [i * k + l]. *)
Lemma concat_uniform_nth (A : Type) (k : nat) (ls : list (list A)) :
  List.Forall (fun r => List.length r = k) ls ->
  forall i l, l < k ->
    List.nth_error (List.concat ls) (i * k + l)
    = match List.nth_error ls i with
      | Some r => List.nth_error r l
      | None => None
      end.
Proof.
  induction 1 as [|r ls Hr _ IH]; intros i l Hl.
  - destruct i; simpl; apply List.nth_error_nil.
  - destruct i as [|i]; simpl.
    + apply List.nth_error_app1. lia.
    + rewrite List.nth_error_app2 by lia.
      replace (k + i * k + l - List.length r) with (i * k + l) by lia.
      apply IH. exact Hl.
Qed.

Lemma rows_uniform (A : Type) (n m : nat) (a : array (array A m) n) :
  List.Forall (fun r => List.length r = m)
    (List.map (fun row => Vector.to_list row) (Vector.to_list a)).
Proof.
  apply List.Forall_map, List.Forall_forall. intros row _.
  apply Vector.length_to_list.
Qed.

Lemma cells2_length (A : Type) (n m : nat) (a : array (array A m) n) :
  List.length (cells2 a) = n * m.
Proof.
  unfold cells2. rewrite (concat_uniform_length (rows_uniform a)).
  rewrite List.length_map, Vector.length_to_list. reflexivity.
Qed.

Lemma planes_uniform (A : Type) (n m k : nat) (a : array (array (array A k) m) n) :
  List.Forall (fun r => List.length r = m * k)
    (List.map (fun plane => cells2 plane) (Vector.to_list a)).
Proof.
  apply List.Forall_map, List.Forall_forall. intros plane _.
  apply cells2_length.
Qed.

Lemma cells3_length (A : Type) (n m k : nat) (a : array (array (array A k) m) n) :
  List.length (cells3 a) = n * (m * k).
Proof.
  unfold cells3. rewrite (concat_uniform_length (planes_uniform a)).
  rewrite List.length_map, Vector.length_to_list. reflexivity.
Qed.

Lemma cells2_nth (A : Type) (n m : nat) (a : array (array A m) n) (j l : nat) :
  l < m ->
  List.nth_error (cells2 a) (j * m + l)
  = match List.nth_error (Vector.to_list a) j with
    | Some row => List.nth_error (Vector.to_list row) l
    | None => None
    end.
Proof.
  intros Hl. unfold cells2.
  rewrite (concat_uniform_nth (rows_uniform a) j Hl).
  unfold array in *.
  rewrite List.nth_error_map.
  destruct (List.nth_error (Vector.to_list a) j); simpl; reflexivity.
Qed.

(** The cell [[i][j][l]] is cell number [offset3 m k i j l] in storage order,
    also when [i] is past the first extent: both sides are [None] then. *)
Lemma cells3_nth (A : Type) (n m k : nat) (a : array (array (array A k) m) n)
    (i j l : nat) :
  j < m -> l < k ->
  List.nth_error (cells3 a) (offset3 m k i j l) = cell3 a i j l.
Proof.
  intros Hj Hl. unfold cells3, cell3, offset3.
  replace ((i * m + j) * k + l) with (i * (m * k) + (j * k + l)) by lia.
  assert (j * k + l < m * k) as Hjl by nia.
  rewrite (concat_uniform_nth (planes_uniform a) i Hjl).
  unfold array in *.
  rewrite List.nth_error_map.
  destruct (List.nth_error (Vector.to_list a) i) as [plane|]; simpl.
  - apply cells2_nth. exact Hl.
  - reflexivity.
Qed.

Lemma index3_offset3 (m k i j l : nat) :
  j < m -> l < k -> index3 m k (offset3 m k i j l) = (i, j, l).
Proof.
  intros Hj Hl. unfold index3, offset3.
  assert (k <> 0) as Hk by lia.
  assert (m <> 0) as Hm by lia.
  assert (((i * m + j) * k + l) / k = i * m + j) as Hq.
  { rewrite Nat.div_add_l by exact Hk. rewrite (Nat.div_small l k) by exact Hl. lia. }
  assert (((i * m + j) * k + l) mod k = l) as Hr.
  { rewrite Nat.add_comm, Nat.Div0.mod_add. apply Nat.mod_small. exact Hl. }
  assert (((i * m + j) * k + l) / (m * k) = i) as Hi.
  { rewrite (Nat.mul_comm m k), <- Nat.Div0.div_div, Hq.
    rewrite Nat.div_add_l by exact Hm. rewrite (Nat.div_small j m) by exact Hj. lia. }
  rewrite Hi, Hq, Hr.
  rewrite Nat.add_comm, Nat.Div0.mod_add, (Nat.mod_small j m) by exact Hj.
  reflexivity.
Qed.

Lemma offset3_index3 (m k o : nat) :
  m <> 0 -> k <> 0 ->
  let '(i, j, l) := index3 m k o in
  offset3 m k i j l = o /\ j < m /\ l < k.
Proof.
  intros Hm Hk. unfold index3, offset3.
  pose proof (Nat.div_mod_eq o k) as H1.
  pose proof (Nat.div_mod_eq (o / k) m) as H2.
  pose proof (Nat.mod_upper_bound o k Hk) as H3.
  pose proof (Nat.mod_upper_bound (o / k) m Hm) as H4.
  assert (o / (m * k) = o / k / m) as H5
    by (rewrite (Nat.mul_comm m k), Nat.Div0.div_div; reflexivity).
  rewrite H5. split; [|split; assumption].
  rewrite (Nat.mul_comm (o / k / m) m), <- H2, (Nat.mul_comm (o / k) k), <- H1.
  reflexivity.
Qed.

Lemma offset3_bound (n m k i j l : nat) :
  j < m -> l < k -> (offset3 m k i j l < n * (m * k) <-> i < n).
Proof.
  intros Hj Hl. unfold offset3.
  rewrite Nat.mul_assoc.
  assert (i * m + j < n * m <-> i < n) as <- by (split; intros H; nia).
  set (r := i * m + j). set (s := n * m).
  split; intros H; nia.
Qed.

Lemma cell3_in_range (A : Type) (n m k : nat) (a : array (array (array A k) m) n)
    (i j l : nat) :
  cell3 a i j l <> None <-> i < n /\ j < m /\ l < k.
Proof.
  unfold cell3, array in *.
  destruct (List.nth_error (Vector.to_list a) i) as [plane|] eqn:Hi.
  - assert (i < n) as Hin.
    { rewrite <- (Vector.length_to_list _ _ a). apply List.nth_error_Some. congruence. }
    destruct (List.nth_error (Vector.to_list plane) j) as [row|] eqn:Hj.
    + assert (j < m) as Hjm.
      { rewrite <- (Vector.length_to_list _ _ plane). apply List.nth_error_Some. congruence. }
      rewrite List.nth_error_Some, Vector.length_to_list. tauto.
    + apply List.nth_error_None in Hj. rewrite Vector.length_to_list in Hj.
      split; [congruence | lia].
  - apply List.nth_error_None in Hi. rewrite Vector.length_to_list in Hi.
    split; [congruence | lia].
Qed.

Example pars0_last_cell :
  cell3 (M_dec AtRest.pars0) 132 1 3 = Some AtRest.zero /\
  List.nth_error (cells3 (M_dec AtRest.pars0)) 1063 = Some AtRest.zero /\
  List.nth_error (cells3 (M_dec AtRest.pars0)) 1064 = None /\
  cell3 (M_dec AtRest.pars0) 132 2 0 = None.
Proof. repeat split; vm_compute; reflexivity. Qed.

(** X2. For every value of the module, the decode matrix holds 1064 coefficients
    and the time-domain frame [4 * FRAME_SIZE] samples; [SHframeTF] and
    [SHframeTF_rot] hold [532 * TIME_SLOTS] cells each and [binframeTF] holds
    [266 * TIME_SLOTS], half as many. *)
Theorem buffer_cell_counts
    (float : Type) (FRAME_SIZE : nat) (CH_ORDER NORM_TYPES complexVector : Type)
    (p : codecPars float)
    (d : ambi_cropac_data float FRAME_SIZE CH_ORDER NORM_TYPES complexVector) :
  List.length (cells3 (M_dec p)) = 1064 /\
  List.length (cells2 (SHFrameTD d)) = 4 * FRAME_SIZE /\
  List.length (cells3 (SHframeTF d)) = 532 * TIME_SLOTS FRAME_SIZE /\
  List.length (cells3 (SHframeTF_rot d)) = 532 * TIME_SLOTS FRAME_SIZE /\
  List.length (cells3 (binframeTF d)) = 266 * TIME_SLOTS FRAME_SIZE /\
  List.length (cells3 (SHframeTF d)) = 2 * List.length (cells3 (binframeTF d)).
Proof.
  rewrite !cells3_length, cells2_length.
  change HYBRID_BANDS with 133. change NUM_EARS with 2. change NUM_SH_SIGNALS with 4.
  repeat split; lia.
Qed.

(** X3. The time-slot extent of the three sub-band buffers,
    [FRAME_SIZE / HOP_SIZE], is positive exactly when the frame holds at least
    one hop of 128 samples. In every module with such a frame each band and
    channel of [SHframeTF], [SHframeTF_rot] and [binframeTF] has at least one
    time slot, so the first two hold at least 532 cells and the third at least
    266. *)
Theorem subband_time_extent_positive (FRAME_SIZE : nat) :
  (0 < TIME_SLOTS FRAME_SIZE <-> HOP_SIZE <= FRAME_SIZE) /\
  (HOP_SIZE <= FRAME_SIZE ->
   forall (float CH_ORDER NORM_TYPES complexVector : Type)
          (d : ambi_cropac_data float FRAME_SIZE CH_ORDER NORM_TYPES complexVector),
     (forall plane slots,
        List.In plane (Vector.to_list (SHframeTF d)) ->
        List.In slots (Vector.to_list plane) -> 0 < dim slots) /\
     (forall plane slots,
        List.In plane (Vector.to_list (SHframeTF_rot d)) ->
        List.In slots (Vector.to_list plane) -> 0 < dim slots) /\
     (forall plane slots,
        List.In plane (Vector.to_list (binframeTF d)) ->
        List.In slots (Vector.to_list plane) -> 0 < dim slots) /\
     532 <= List.length (cells3 (SHframeTF d)) /\
     532 <= List.length (cells3 (SHframeTF_rot d)) /\
     266 <= List.length (cells3 (binframeTF d))).
Proof.
  pose proof (TIME_SLOTS_zero FRAME_SIZE) as Hzero.
  assert (0 < TIME_SLOTS FRAME_SIZE <-> HOP_SIZE <= FRAME_SIZE) as Hpos by lia.
  split; [exact Hpos|].
  intros Hframe float CH_ORDER NORM_TYPES complexVector d.
  apply Hpos in Hframe.
  rewrite !cells3_length.
  change HYBRID_BANDS with 133. change NUM_EARS with 2. change NUM_SH_SIGNALS with 4.
  repeat split; try (intros plane slots _ _; rewrite dim_extent; exact Hframe); nia.
Qed.

(** X3 at the module at rest, whose frame of 512 samples holds four hops. *)
Lemma subband_time_extent_positive_witness :
  (forall plane slots,
     List.In plane (Vector.to_list (SHframeTF AtRest.data0)) ->
     List.In slots (Vector.to_list plane) -> 0 < dim slots) /\
  (forall plane slots,
     List.In plane (Vector.to_list (SHframeTF_rot AtRest.data0)) ->
     List.In slots (Vector.to_list plane) -> 0 < dim slots) /\
  (forall plane slots,
     List.In plane (Vector.to_list (binframeTF AtRest.data0)) ->
     List.In slots (Vector.to_list plane) -> 0 < dim slots) /\
  532 <= List.length (cells3 (SHframeTF AtRest.data0)) /\
  532 <= List.length (cells3 (SHframeTF_rot AtRest.data0)) /\
  266 <= List.length (cells3 (binframeTF AtRest.data0)).
Proof.
  apply (proj2 (subband_time_extent_positive AtRest.FRAME_SIZE)).
  unfold HOP_SIZE, AtRest.FRAME_SIZE. lia.
Defined.

(** X4. The coefficient [M_dec[band][ear][ch]], for an ear below 2 and a channel
    below 4, is coefficient number [(band * 2 + ear) * 4 + ch] of the matrix
    in storage order. That number is below 1064 exactly when the band is
    below 133, in which case the coefficient exists, and it determines the
    three indices, so that no two coefficients share a place. *)
Theorem M_dec_row_major (float : Type) (p : codecPars float) (band ear ch : nat) :
  ear < NUM_EARS ->
  ch < NUM_SH_SIGNALS ->
  offset3 NUM_EARS NUM_SH_SIGNALS band ear ch = (band * 2 + ear) * 4 + ch /\
  List.nth_error (cells3 (M_dec p)) ((band * 2 + ear) * 4 + ch)
  = cell3 (M_dec p) band ear ch /\
  ((band * 2 + ear) * 4 + ch < List.length (cells3 (M_dec p)) <-> band < HYBRID_BANDS) /\
  (cell3 (M_dec p) band ear ch <> None <-> band < HYBRID_BANDS) /\
  index3 NUM_EARS NUM_SH_SIGNALS ((band * 2 + ear) * 4 + ch) = (band, ear, ch).
Proof.
  intros Hear Hch.
  split; [reflexivity|].
  split; [apply (cells3_nth (M_dec p) band Hear Hch)|].
  split; [rewrite cells3_length; apply (offset3_bound HYBRID_BANDS band Hear Hch)|].
  split; [rewrite cell3_in_range; tauto|].
  apply (index3_offset3 band Hear Hch).
Qed.

(** X4 at the last coefficient of the decode matrix of the module at rest. *)
Lemma M_dec_row_major_witness :
  offset3 NUM_EARS NUM_SH_SIGNALS 132 1 3 = (132 * 2 + 1) * 4 + 3 /\
  List.nth_error (cells3 (M_dec AtRest.pars0)) ((132 * 2 + 1) * 4 + 3)
  = cell3 (M_dec AtRest.pars0) 132 1 3 /\
  ((132 * 2 + 1) * 4 + 3 < List.length (cells3 (M_dec AtRest.pars0)) <-> 132 < HYBRID_BANDS) /\
  (cell3 (M_dec AtRest.pars0) 132 1 3 <> None <-> 132 < HYBRID_BANDS) /\
  index3 NUM_EARS NUM_SH_SIGNALS ((132 * 2 + 1) * 4 + 3) = (132, 1, 3).
Proof.
  apply (@M_dec_row_major Q AtRest.pars0 132 1 3).
  - unfold NUM_EARS. lia.
  - unfold NUM_SH_SIGNALS, SH_ORDER. simpl. lia.
Defined.

(** ** The angle macros *)

Import Macro.

Scheme unary_expr_mut := Induction for unary_expr Sort Prop
  with multiplicative_expr_mut := Induction for multiplicative_expr Sort Prop
  with additive_expr_mut := Induction for additive_expr Sort Prop.
Combined Scheme expr_mutind
  from unary_expr_mut, multiplicative_expr_mut, additive_expr_mut.

Lemma enough_both (R1 R2 : Type) (run1 : nat -> option R1) (run2 : nat -> option R2)
    (r1 : R1) (r2 : R2) :
  enough run1 r1 -> enough run2 r2 ->
  exists n, forall fuel, n <= fuel -> run1 fuel = Some r1 /\ run2 fuel = Some r2.
Proof.
  intros [n1 H1] [n2 H2]. exists (Nat.max n1 n2). intros fuel Hf.
  split; [apply H1 | apply H2]; lia.
Qed.

Section EvaluationFacts.

Variable float : Type.
Variables fadd fsub fmul fdiv : float -> float -> float.
Variable fneg : float -> float.
Variable identifier : string -> float.
Variable constant : string -> float.

Local Abbreviation eval_unary := (unary fadd fsub fmul fdiv fneg identifier constant).
Local Abbreviation eval_mult := (multiplicative fadd fsub fmul fdiv fneg identifier constant).
Local Abbreviation eval_mult_rest :=
  (multiplicative_rest fadd fsub fmul fdiv fneg identifier constant).
Local Abbreviation eval_add := (additive fadd fsub fmul fdiv fneg identifier constant).
Local Abbreviation eval_add_rest :=
  (additive_rest fadd fsub fmul fdiv fneg identifier constant).
Local Abbreviation val_unary := (value_of_unary fadd fsub fmul fdiv fneg identifier constant).
Local Abbreviation val_mult :=
  (value_of_multiplicative fadd fsub fmul fdiv fneg identifier constant).
Local Abbreviation val_add :=
  (value_of_additive fadd fsub fmul fdiv fneg identifier constant).

Lemma multiplicative_rest_stops (acc : float) (rest : list token) :
  continues_multiplicative rest = false ->
  enough (fun fuel => eval_mult_rest fuel acc rest) (acc, rest).
Proof.
  intros Hrest. exists 1. intros [|fuel] Hf; [lia|].
  destruct rest as [|[] rest]; simpl in *; try reflexivity; discriminate.
Qed.

(** The evaluator reads the text of an expression as that expression: a
    unary expression whatever follows it; a multiplicative expression and then
    whatever the loop over [*] and [/] makes of the rest; an additive
    expression likewise, if the rest does not go on with [*] or [/]. *)
Lemma evaluator_reads_expressions :
  (forall u rest,
     enough (fun fuel => eval_unary fuel (tokens_of_unary u ++ rest))
            (val_unary u, rest)) /\
  (forall m rest r,
     enough (fun fuel => eval_mult_rest fuel (val_mult m) rest) r ->
     enough (fun fuel => eval_mult fuel (tokens_of_multiplicative m ++ rest)) r) /\
  (forall a rest r,
     continues_multiplicative rest = false ->
     enough (fun fuel => eval_add_rest fuel (val_add a) rest) r ->
     enough (fun fuel => eval_add fuel (tokens_of_additive a ++ rest)) r).
Proof.
  apply expr_mutind.
  - (* Var *)
    intros x rest. exists 1. intros [|fuel] Hf; [lia | reflexivity].
  - (* Const *)
    intros c rest. exists 1. intros [|fuel] Hf; [lia | reflexivity].
  - (* Neg *)
    intros u IH rest. destruct (IH rest) as [n Hn].
    exists (S n). intros [|fuel] Hf; [lia|].
    simpl. rewrite Hn by lia. reflexivity.
  - (* Paren *)
    intros a IH rest.
    assert (enough (fun fuel => eval_add fuel (tokens_of_additive a ++ RPAREN :: rest))
                   (val_add a, RPAREN :: rest)) as [n Hn].
    { apply IH; [reflexivity|]. exists 1. intros [|fuel] Hf; [lia | reflexivity]. }
    exists (S n). intros [|fuel] Hf; [lia|].
    simpl. rewrite <- List.app_assoc. simpl. rewrite Hn by lia. reflexivity.
  - (* MUnary *)
    intros u IH rest r Hr.
    destruct (enough_both (IH rest) Hr) as [n Hn].
    exists (S n). intros [|fuel] Hf; [lia|].
    destruct (Hn fuel) as [H1 H2]; [lia|].
    simpl. rewrite H1. exact H2.
  - (* Mul *)
    intros m IHm u IHu rest r Hr.
    simpl. rewrite <- List.app_assoc. simpl. apply IHm.
    destruct (enough_both (IHu rest) Hr) as [n Hn].
    exists (S n). intros [|fuel] Hf; [lia|].
    destruct (Hn fuel) as [H1 H2]; [lia|].
    simpl. rewrite H1. exact H2.
  - (* Div *)
    intros m IHm u IHu rest r Hr.
    simpl. rewrite <- List.app_assoc. simpl. apply IHm.
    destruct (enough_both (IHu rest) Hr) as [n Hn].
    exists (S n). intros [|fuel] Hf; [lia|].
    destruct (Hn fuel) as [H1 H2]; [lia|].
    simpl. rewrite H1. exact H2.
  - (* AMult *)
    intros m IH rest r Hrest Hr.
    assert (enough (fun fuel => eval_mult fuel (tokens_of_multiplicative m ++ rest))
                   (val_mult m, rest)) as Hm
      by (apply IH, multiplicative_rest_stops, Hrest).
    destruct (enough_both Hm Hr) as [n Hn].
    exists (S n). intros [|fuel] Hf; [lia|].
    destruct (Hn fuel) as [H1 H2]; [lia|].
    simpl. rewrite H1. exact H2.
  - (* Add *)
    intros a IHa m IHm rest r Hrest Hr.
    simpl. rewrite <- List.app_assoc. simpl. apply IHa; [reflexivity|].
    assert (enough (fun fuel => eval_mult fuel (tokens_of_multiplicative m ++ rest))
                   (val_mult m, rest)) as Hm
      by (apply IHm, multiplicative_rest_stops, Hrest).
    destruct (enough_both Hm Hr) as [n Hn].
    exists (S n). intros [|fuel] Hf; [lia|].
    destruct (Hn fuel) as [H1 H2]; [lia|].
    simpl. rewrite H1. exact H2.
  - (* Sub *)
    intros a IHa m IHm rest r Hrest Hr.
    simpl. rewrite <- List.app_assoc. simpl. apply IHa; [reflexivity|].
    assert (enough (fun fuel => eval_mult fuel (tokens_of_multiplicative m ++ rest))
                   (val_mult m, rest)) as Hm
      by (apply IHm, multiplicative_rest_stops, Hrest).
    destruct (enough_both Hm Hr) as [n Hn].
    exists (S n). intros [|fuel] Hf; [lia|].
    destruct (Hn fuel) as [H1 H2]; [lia|].
    simpl. rewrite H1. exact H2.
Qed.

End EvaluationFacts.

Section MacroFacts.

Variable float : Type.
Variables fadd fsub fmul fdiv : float -> float -> float.
Variable fneg : float -> float.
Variable identifier : string -> float.
Variable constant : string -> float.

Local Abbreviation text_value := (value fadd fsub fmul fdiv fneg identifier constant).
Local Abbreviation val_unary := (value_of_unary fadd fsub fmul fdiv fneg identifier constant).
Local Abbreviation val_mult :=
  (value_of_multiplicative fadd fsub fmul fdiv fneg identifier constant).
Local Abbreviation val_add :=
  (value_of_additive fadd fsub fmul fdiv fneg identifier constant).

(** The text of an expression evaluates to the value of the expression. *)
Lemma value_of_text (a : additive_expr) :
  enough (fun fuel => text_value fuel (tokens_of_additive a)) (val_add a).
Proof.
  destruct (evaluator_reads_expressions fadd fsub fmul fdiv fneg identifier constant)
    as (_ & _ & Hadd).
  destruct (Hadd a [] (val_add a, [])) as [n Hn].
  - reflexivity.
  - exists 1. intros [|fuel] Hf; [lia | reflexivity].
  - exists n. intros fuel Hf. unfold value.
    rewrite List.app_nil_r in Hn. rewrite Hn by exact Hf. reflexivity.
Qed.

(** A macro body [(x * u1 / u2)] around an argument that is one
    multiplicative expression, and around a sum or difference: the body then
    reads as the sum or difference of the front of the argument and the
    scaled last term. *)
Lemma scaled_text_single (m : multiplicative_expr) (u1 u2 : unary_expr) :
  [LPAREN] ++ tokens_of_multiplicative m
    ++ (STAR :: tokens_of_unary u1 ++ SLASH :: tokens_of_unary u2) ++ [RPAREN]
  = tokens_of_additive (AMult (MUnary (Paren (AMult (Div (Mul m u1) u2))))).
Proof. simpl. repeat (rewrite <- List.app_assoc; simpl). reflexivity. Qed.

Lemma scaled_text_sum (a : additive_expr) (m : multiplicative_expr) (u1 u2 : unary_expr) :
  [LPAREN] ++ tokens_of_additive (Add a m)
    ++ (STAR :: tokens_of_unary u1 ++ SLASH :: tokens_of_unary u2) ++ [RPAREN]
  = tokens_of_additive (AMult (MUnary (Paren (Add a (Div (Mul m u1) u2))))).
Proof. simpl. repeat (rewrite <- List.app_assoc; simpl). reflexivity. Qed.

Lemma scaled_text_difference
    (a : additive_expr) (m : multiplicative_expr) (u1 u2 : unary_expr) :
  [LPAREN] ++ tokens_of_additive (Sub a m)
    ++ (STAR :: tokens_of_unary u1 ++ SLASH :: tokens_of_unary u2) ++ [RPAREN]
  = tokens_of_additive (AMult (MUnary (Paren (Sub a (Div (Mul m u1) u2))))).
Proof. simpl. repeat (rewrite <- List.app_assoc; simpl). reflexivity. Qed.

(** X5. [DEG2RAD] does not put its argument in parentheses. Called on one
    multiplicative expression (an identifier, a constant, a parenthesised
    expression, a product, a quotient) it yields the value of the argument
    times [PI] divided by [180.0f], in this order. Called on a sum or a
    difference it scales the last term only: [DEG2RAD(a + m)] is
    [a + m * PI / 180.0f]. *)
Theorem DEG2RAD_scales_last_term :
  (forall m : multiplicative_expr,
     enough (fun fuel => text_value fuel (DEG2RAD (tokens_of_multiplicative m)))
       (fdiv (fmul (val_mult m) (identifier "PI")) (constant "180.0f"))) /\
  (forall (a : additive_expr) (m : multiplicative_expr),
     enough (fun fuel => text_value fuel (DEG2RAD (tokens_of_additive (Add a m))))
       (fadd (val_add a)
          (fdiv (fmul (val_mult m) (identifier "PI")) (constant "180.0f")))) /\
  (forall (a : additive_expr) (m : multiplicative_expr),
     enough (fun fuel => text_value fuel (DEG2RAD (tokens_of_additive (Sub a m))))
       (fsub (val_add a)
          (fdiv (fmul (val_mult m) (identifier "PI")) (constant "180.0f")))).
Proof.
  repeat split.
  - intros m.
    replace (DEG2RAD (tokens_of_multiplicative m))
      with (tokens_of_additive
              (AMult (MUnary (Paren (AMult (Div (Mul m (Var "PI")) (Const "180.0f")))))))
      by (symmetry; apply (scaled_text_single m (Var "PI") (Const "180.0f"))).
    apply value_of_text.
  - intros a m.
    replace (DEG2RAD (tokens_of_additive (Add a m)))
      with (tokens_of_additive
              (AMult (MUnary (Paren (Add a (Div (Mul m (Var "PI")) (Const "180.0f")))))))
      by (symmetry; apply (scaled_text_sum a m (Var "PI") (Const "180.0f"))).
    apply value_of_text.
  - intros a m.
    replace (DEG2RAD (tokens_of_additive (Sub a m)))
      with (tokens_of_additive
              (AMult (MUnary (Paren (Sub a (Div (Mul m (Var "PI")) (Const "180.0f")))))))
      by (symmetry; apply (scaled_text_difference a m (Var "PI") (Const "180.0f"))).
    apply value_of_text.
Qed.

(** X6. [RAD2DEG] has the same shape: on one multiplicative expression it yields
    the value of the argument times [180.0f] divided by [PI], and on a sum or
    a difference it scales the last term only. *)
Theorem RAD2DEG_scales_last_term :
  (forall m : multiplicative_expr,
     enough (fun fuel => text_value fuel (RAD2DEG (tokens_of_multiplicative m)))
       (fdiv (fmul (val_mult m) (constant "180.0f")) (identifier "PI"))) /\
  (forall (a : additive_expr) (m : multiplicative_expr),
     enough (fun fuel => text_value fuel (RAD2DEG (tokens_of_additive (Add a m))))
       (fadd (val_add a)
          (fdiv (fmul (val_mult m) (constant "180.0f")) (identifier "PI")))) /\
  (forall (a : additive_expr) (m : multiplicative_expr),
     enough (fun fuel => text_value fuel (RAD2DEG (tokens_of_additive (Sub a m))))
       (fsub (val_add a)
          (fdiv (fmul (val_mult m) (constant "180.0f")) (identifier "PI")))).
Proof.
  repeat split.
  - intros m.
    replace (RAD2DEG (tokens_of_multiplicative m))
      with (tokens_of_additive
              (AMult (MUnary (Paren (AMult (Div (Mul m (Const "180.0f")) (Var "PI")))))))
      by (symmetry; apply (scaled_text_single m (Const "180.0f") (Var "PI"))).
    apply value_of_text.
  - intros a m.
    replace (RAD2DEG (tokens_of_additive (Add a m)))
      with (tokens_of_additive
              (AMult (MUnary (Paren (Add a (Div (Mul m (Const "180.0f")) (Var "PI")))))))
      by (symmetry; apply (scaled_text_sum a m (Const "180.0f") (Var "PI"))).
    apply value_of_text.
  - intros a m.
    replace (RAD2DEG (tokens_of_additive (Sub a m)))
      with (tokens_of_additive
              (AMult (MUnary (Paren (Sub a (Div (Mul m (Const "180.0f")) (Var "PI")))))))
      by (symmetry; apply (scaled_text_difference a m (Const "180.0f") (Var "PI"))).
    apply value_of_text.
Qed.

End MacroFacts.

(** [DEG2RAD(a + b)] with [a] and [b] both 90, in rational arithmetic with
    3.14 for [PI]: the text evaluates to 90 + 1.57 and not to 3.14. *)
Example DEG2RAD_of_a_sum :
  exists v : Q,
    value Qplus Qminus Qmult Qdiv Qopp
      (fun x => if String.eqb x "PI" then (314 # 100)%Q else 90%Q)
      (fun _ => 180%Q)
      20 (DEG2RAD [IDENT "a"; PLUS; IDENT "b"]) = Some v /\
    (v == 90 + (157 # 100))%Q /\
    ~ (v == 314 # 100)%Q.
Proof.
  eexists. split; [vm_compute; reflexivity|].
  split; [reflexivity | intros H; discriminate H].
Qed.

Example DEG2RAD_of_an_identifier :
  exists v : Q,
    value Qplus Qminus Qmult Qdiv Qopp
      (fun x => if String.eqb x "PI" then (314 # 100)%Q else 180%Q)
      (fun _ => 180%Q)
      20 (DEG2RAD [IDENT "yaw"]) = Some v /\
    (v == 314 # 100)%Q.
Proof.
  eexists. split; [vm_compute; reflexivity | reflexivity].
Qed.

Example malformed_text :
  value Qplus Qminus Qmult Qdiv Qopp (fun _ => 1%Q) (fun _ => 1%Q) 20
    (DEG2RAD []) = None /\
  value Qplus Qminus Qmult Qdiv Qopp (fun _ => 1%Q) (fun _ => 1%Q) 20
    [IDENT "a"; IDENT "b"] = None.
Proof. split; reflexivity. Qed.
